(** * Register maps of the UDP Offload Engine

    A shallow embedding of the three C headers under [docs/headers]:
    - [enums_uoe_registers.h]  : the built-in-test enumeration [T_BIT];
    - [main_uoe_registers.h]   : the register block of the main engine;
    - [test_uoe_registers.h]   : the register block of the test engine.

    Every register is declared as
    [union { unsigned int regValue; struct { unsigned int f : w; ... } field; }],
    so a register is a 32-bit word ([regValue]) seen through a list of
    bit-fields.  The headers give the bit-fields as (name, width) in
    declaration order; bit offsets come from the C allocation rule, which is
    written out in [allocate]. *)

From Stdlib Require Import ZArith List String Bool Lia.
Import ListNotations.

Local Open Scope Z_scope.

(* ================================================================== *)
(** * Declarations, as the headers write them *)

(** [unsigned int name : width;] *)
Record bitfield := bf { bf_name : string; bf_width : Z }.

(** A member of a register block: either the union of [regValue] with a
    struct of bit-fields, or a bare [unsigned int] word. *)
Inductive member :=
| reg (name : string) (decl : list bitfield)
| word (name : string).

Definition member_name (m : member) : string :=
  match m with reg n _ => n | word n => n end.

Definition member_decl (m : member) : list bitfield :=
  match m with reg _ d => d | word n => [bf n 32] end.

(** ** enums_uoe_registers.h *)
Module Enums.

Inductive T_BIT := no_bit | pbit | ibit | cbit.

Definition T_BIT_value (t : T_BIT) : Z :=
  match t with
  | no_bit => 0
  | pbit => 1
  | ibit => 2
  | cbit => 3
  end.

Definition T_BIT_all : list T_BIT := [no_bit; pbit; ibit; cbit].

Definition T_BIT_of_value (z : Z) : option T_BIT :=
  find (fun t => T_BIT_value t =? z) T_BIT_all.

End Enums.

(** ** main_uoe_registers.h *)
Module Main.

Definition reg_version := reg "reg_version"
  [bf "version" 8; bf "revision" 8; bf "debug" 16].
Definition reg_local_mac_addr_lsb := reg "reg_local_mac_addr_lsb"
  [bf "local_mac_addr_lsb" 32].
Definition reg_local_mac_addr_msb := reg "reg_local_mac_addr_msb"
  [bf "local_mac_addr_msb" 16; bf "padding1" 16].
Definition reg_local_ip_addr := reg "reg_local_ip_addr"
  [bf "local_ip_addr" 32].
Definition reg_raw_dest_mac_addr_lsb := reg "reg_raw_dest_mac_addr_lsb"
  [bf "raw_dest_mac_addr_lsb" 32].
Definition reg_raw_dest_mac_addr_msb := reg "reg_raw_dest_mac_addr_msb"
  [bf "raw_dest_mac_addr_msb" 16; bf "padding1" 16].
Definition reg_ipv4_time_to_leave := reg "reg_ipv4_time_to_leave"
  [bf "ttl" 8; bf "padding1" 24].
Definition reg_filtering_control := reg "reg_filtering_control"
  [bf "broadcast_filter_enable" 1;
   bf "ipv4_multicast_filter_enable" 1;
   bf "unicast_filter_enable" 1;
   bf "padding3" 29].
Definition reg_ipv4_multicast_ip_addr_1 := reg "reg_ipv4_multicast_ip_addr_1"
  [bf "multicast_ip_addr_1" 28; bf "multicast_ip_addr_1_enable" 1;
   bf "padding2" 3].
Definition reg_ipv4_multicast_ip_addr_2 := reg "reg_ipv4_multicast_ip_addr_2"
  [bf "multicast_ip_addr_2" 28; bf "multicast_ip_addr_2_enable" 1;
   bf "padding2" 3].
Definition reg_ipv4_multicast_ip_addr_3 := reg "reg_ipv4_multicast_ip_addr_3"
  [bf "multicast_ip_addr_3" 28; bf "multicast_ip_addr_3_enable" 1;
   bf "padding2" 3].
Definition reg_ipv4_multicast_ip_addr_4 := reg "reg_ipv4_multicast_ip_addr_4"
  [bf "multicast_ip_addr_4" 28; bf "multicast_ip_addr_4_enable" 1;
   bf "padding2" 3].
Definition reg_arp_configuration := reg "reg_arp_configuration"
  [bf "arp_timeout_ms" 12;
   bf "arp_tryings" 4;
   bf "arp_gratuitous_req" 1;
   bf "arp_rx_target_ip_filter" 2;
   bf "arp_rx_test_local_ip_conflict" 1;
   bf "arp_table_clear" 1;
   bf "padding6" 11].
Definition reg_arp_sw_req := reg "reg_arp_sw_req"
  [bf "arp_sw_req_dest_ip_addr" 32].
Definition reg_config_done := reg "reg_config_done"
  [bf "config_done" 1; bf "padding1" 31].
Definition padding15 := word "padding15".
Definition reg_monitoring_crc_filter := reg "reg_monitoring_crc_filter"
  [bf "crc_filter_counter" 32].
Definition reg_monitoring_mac_filter := reg "reg_monitoring_mac_filter"
  [bf "mac_filter_counter" 32].
Definition reg_monitoring_ext_drop := reg "reg_monitoring_ext_drop"
  [bf "ext_drop_counter" 32].
Definition reg_monitoring_raw_drop := reg "reg_monitoring_raw_drop"
  [bf "raw_drop_counter" 32].
Definition reg_monitoring_udp_drop := reg "reg_monitoring_udp_drop"
  [bf "udp_drop_counter" 32].
Definition reg_interrupt_status := reg "reg_interrupt_status"
  [bf "irq_init_done_status" 1;
   bf "irq_arp_table_clear_done_status" 1;
   bf "irq_arp_ip_conflict_status" 1;
   bf "irq_arp_mac_conflict_status" 1;
   bf "irq_arp_error_status" 1;
   bf "irq_arp_rx_fifo_overflow_status" 1;
   bf "irq_router_data_rx_fifo_overflow_status" 1;
   bf "irq_router_crc_rx_fifo_overflow_status" 1;
   bf "irq_ipv4_rx_frag_offset_error_status" 1;
   bf "padding9" 23].
Definition reg_interrupt_enable := reg "reg_interrupt_enable"
  [bf "irq_init_done_enable" 1;
   bf "irq_arp_table_clear_done_enable" 1;
   bf "irq_arp_ip_conflict_enable" 1;
   bf "irq_arp_mac_conflict_enable" 1;
   bf "irq_arp_error_enable" 1;
   bf "irq_arp_rx_fifo_overflow_enable" 1;
   bf "irq_router_data_rx_fifo_overflow_enable" 1;
   bf "irq_router_crc_rx_fifo_overflow_enable" 1;
   bf "irq_ipv4_rx_frag_offset_error_enable" 1;
   bf "padding9" 23].
Definition reg_interrupt_clear := reg "reg_interrupt_clear"
  [bf "irq_init_done_clear" 1;
   bf "irq_arp_table_clear_done_clear" 1;
   bf "irq_arp_ip_conflict_clear" 1;
   bf "irq_arp_mac_conflict_clear" 1;
   bf "irq_arp_error_clear" 1;
   bf "irq_arp_rx_fifo_overflow_clear" 1;
   bf "irq_router_data_rx_fifo_overflow_clear" 1;
   bf "irq_router_crc_rx_fifo_overflow_clear" 1;
   bf "irq_ipv4_rx_frag_offset_error_clear" 1;
   bf "padding9" 23].
Definition reg_interrupt_set := reg "reg_interrupt_set"
  [bf "irq_init_done_set" 1;
   bf "irq_arp_table_clear_done_set" 1;
   bf "irq_arp_ip_conflict_set" 1;
   bf "irq_arp_mac_conflict_set" 1;
   bf "irq_arp_error_set" 1;
   bf "irq_arp_rx_fifo_overflow_set" 1;
   bf "irq_router_data_rx_fifo_overflow_set" 1;
   bf "irq_router_crc_rx_fifo_overflow_set" 1;
   bf "irq_ipv4_rx_frag_offset_error_set" 1;
   bf "padding9" 23].

(** [typedef struct { ... } main_uoe_registers;], members in order. *)
Definition main_uoe_registers : list member :=
  [reg_version; reg_local_mac_addr_lsb; reg_local_mac_addr_msb;
   reg_local_ip_addr; reg_raw_dest_mac_addr_lsb; reg_raw_dest_mac_addr_msb;
   reg_ipv4_time_to_leave; reg_filtering_control;
   reg_ipv4_multicast_ip_addr_1; reg_ipv4_multicast_ip_addr_2;
   reg_ipv4_multicast_ip_addr_3; reg_ipv4_multicast_ip_addr_4;
   reg_arp_configuration; reg_arp_sw_req; reg_config_done; padding15;
   reg_monitoring_crc_filter; reg_monitoring_mac_filter;
   reg_monitoring_ext_drop; reg_monitoring_raw_drop;
   reg_monitoring_udp_drop;
   reg_interrupt_status; reg_interrupt_enable; reg_interrupt_clear;
   reg_interrupt_set].

End Main.

(** ** test_uoe_registers.h *)
Module Test.

Definition reg_gen_chk_control := reg "reg_gen_chk_control"
  [bf "loopback_mac_en" 1;
   bf "loopback_udp_en" 1;
   bf "gen_start" 1;
   bf "gen_stop" 1;
   bf "chk_start" 1;
   bf "chk_stop" 1;
   bf "padding6" 26].
Definition reg_gen_config := reg "reg_gen_config"
  [bf "gen_frame_size_type" 1;
   bf "padding1" 16;
   bf "gen_frame_size_static" 16;
   bf "gen_rate_limitation" 8].
Definition reg_gen_nb_bytes_lsb := reg "reg_gen_nb_bytes_lsb"
  [bf "gen_nb_bytes_lsb" 32].
Definition reg_gen_nb_bytes_msb := reg "reg_gen_nb_bytes_msb"
  [bf "gen_nb_bytes_msb" 32].
Definition reg_gen_test_duration_lsb := reg "reg_gen_test_duration_lsb"
  [bf "gen_test_duration_lsb" 32].
Definition reg_gen_test_duration_msb := reg "reg_gen_test_duration_msb"
  [bf "gen_test_duration_msb" 32].
Definition reg_chk_config := reg "reg_chk_config"
  [bf "chk_frame_size_type" 1;
   bf "padding1" 16;
   bf "chk_frame_size_static" 16;
   bf "chk_rate_limitation" 8].
Definition reg_chk_nb_bytes_lsb := reg "reg_chk_nb_bytes_lsb"
  [bf "chk_nb_bytes_lsb" 32].
Definition reg_chk_nb_bytes_msb := reg "reg_chk_nb_bytes_msb"
  [bf "chk_nb_bytes_msb" 32].
Definition reg_chk_test_duration_lsb := reg "reg_chk_test_duration_lsb"
  [bf "chk_test_duration_lsb" 32].
Definition reg_chk_test_duration_msb := reg "reg_chk_test_duration_msb"
  [bf "chk_test_duration_msb" 32].
Definition reg_lb_gen_udp_port := reg "reg_lb_gen_udp_port"
  [bf "lb_gen_dest_port" 16; bf "lb_gen_src_port" 16].
Definition reg_lb_gen_dest_ip_addr := reg "reg_lb_gen_dest_ip_addr"
  [bf "lb_gen_dest_ip_addr" 32].
Definition reg_chk_udp_port := reg "reg_chk_udp_port"
  [bf "chk_listening_port" 16; bf "padding1" 16].
Definition reg_interrupt_status := reg "reg_interrupt_status"
  [bf "irq_gen_done_status" 1;
   bf "irq_gen_err_timeout_status" 1;
   bf "irq_chk_done_status" 1;
   bf "irq_chk_err_frame_size_status" 1;
   bf "irq_chk_err_data_status" 1;
   bf "irq_chk_err_timeout_status" 1;
   bf "irq_rate_meter_tx_done_status" 1;
   bf "irq_rate_meter_tx_overflow_status" 1;
   bf "irq_rate_meter_rx_done_status" 1;
   bf "irq_rate_meter_rx_overflow_status" 1;
   bf "padding10" 22].
Definition reg_interrupt_enable := reg "reg_interrupt_enable"
  [bf "irq_gen_done_enable" 1;
   bf "irq_gen_err_timeout_enable" 1;
   bf "irq_chk_done_enable" 1;
   bf "irq_chk_err_frame_size_enable" 1;
   bf "irq_chk_err_data_enable" 1;
   bf "irq_chk_err_timeout_enable" 1;
   bf "irq_rate_meter_tx_done_enable" 1;
   bf "irq_rate_meter_tx_overflow_enable" 1;
   bf "irq_rate_meter_rx_done_enable" 1;
   bf "irq_rate_meter_rx_overflow_enable" 1;
   bf "padding10" 22].
Definition reg_interrupt_clear := reg "reg_interrupt_clear"
  [bf "irq_gen_done_clear" 1;
   bf "irq_gen_err_timeout_clear" 1;
   bf "irq_chk_done_clear" 1;
   bf "irq_chk_err_frame_size_clear" 1;
   bf "irq_chk_err_data_clear" 1;
   bf "irq_chk_err_timeout_clear" 1;
   bf "irq_rate_meter_tx_done_clear" 1;
   bf "irq_rate_meter_tx_overflow_clear" 1;
   bf "irq_rate_meter_rx_done_clear" 1;
   bf "irq_rate_meter_rx_overflow_clear" 1;
   bf "padding10" 22].
Definition reg_interrupt_set := reg "reg_interrupt_set"
  [bf "irq_gen_done_set" 1;
   bf "irq_gen_err_timeout_set" 1;
   bf "irq_chk_done_set" 1;
   bf "irq_chk_err_frame_size_set" 1;
   bf "irq_chk_err_data_set" 1;
   bf "irq_chk_err_timeout_set" 1;
   bf "irq_rate_meter_tx_done_set" 1;
   bf "irq_rate_meter_tx_overflow_set" 1;
   bf "irq_rate_meter_rx_done_set" 1;
   bf "irq_rate_meter_rx_overflow_set" 1;
   bf "padding10" 22].
Definition reg_tx_rate_meter_ctrl := reg "reg_tx_rate_meter_ctrl"
  [bf "tx_rm_init_counter" 1; bf "padding1" 31].
Definition reg_tx_rm_bytes_expt_lsb := reg "reg_tx_rm_bytes_expt_lsb"
  [bf "tx_rm_bytes_expt_lsb" 32].
Definition reg_tx_rm_bytes_expt_msb := reg "reg_tx_rm_bytes_expt_msb"
  [bf "tx_rm_bytes_expt_msb" 32].
Definition reg_tx_rm_cnt_bytes_lsb := reg "reg_tx_rm_cnt_bytes_lsb"
  [bf "tx_rm_cnt_bytes_lsb" 32].
Definition reg_tx_rm_cnt_bytes_msb := reg "reg_tx_rm_cnt_bytes_msb"
  [bf "tx_rm_cnt_bytes_msb" 32].
Definition reg_tx_rm_cnt_cycles_lsb := reg "reg_tx_rm_cnt_cycles_lsb"
  [bf "tx_rm_cnt_cycles_lsb" 32].
Definition reg_tx_rm_cnt_cycles_msb := reg "reg_tx_rm_cnt_cycles_msb"
  [bf "tx_rm_cnt_cycles_msb" 32].
Definition reg_rx_rate_meter_ctrl := reg "reg_rx_rate_meter_ctrl"
  [bf "rx_rm_init_counter" 1; bf "padding1" 31].
Definition reg_rx_fm_bytes_expt_lsb := reg "reg_rx_fm_bytes_expt_lsb"
  [bf "rx_rm_bytes_expt_lsb" 32].
Definition reg_rx_rm_bytes_expt_msb := reg "reg_rx_rm_bytes_expt_msb"
  [bf "rx_rm_bytes_expt_msb" 32].
Definition reg_rx_rm_cnt_bytes_lsb := reg "reg_rx_rm_cnt_bytes_lsb"
  [bf "rx_rm_cnt_bytes_lsb" 32].
Definition reg_rx_rm_cnt_bytes_msb := reg "reg_rx_rm_cnt_bytes_msb"
  [bf "rx_rm_cnt_bytes_msb" 32].
Definition reg_rx_rm_cnt_cycles_lsb := reg "reg_rx_rm_cnt_cycles_lsb"
  [bf "rx_rm_cnt_cycles_lsb" 32].
Definition reg_rx_rm_cnt_cycles_msb := reg "reg_rx_rm_cnt_cycles_msb"
  [bf "rx_rm_cnt_cycles_msb" 32].

(** [typedef struct { ... } test_uoe_registers;], members in order. *)
Definition test_uoe_registers : list member :=
  [reg_gen_chk_control; reg_gen_config;
   reg_gen_nb_bytes_lsb; reg_gen_nb_bytes_msb;
   reg_gen_test_duration_lsb; reg_gen_test_duration_msb;
   reg_chk_config;
   reg_chk_nb_bytes_lsb; reg_chk_nb_bytes_msb;
   reg_chk_test_duration_lsb; reg_chk_test_duration_msb;
   reg_lb_gen_udp_port; reg_lb_gen_dest_ip_addr; reg_chk_udp_port;
   reg_interrupt_status; reg_interrupt_enable; reg_interrupt_clear;
   reg_interrupt_set;
   reg_tx_rate_meter_ctrl;
   reg_tx_rm_bytes_expt_lsb; reg_tx_rm_bytes_expt_msb;
   reg_tx_rm_cnt_bytes_lsb; reg_tx_rm_cnt_bytes_msb;
   reg_tx_rm_cnt_cycles_lsb; reg_tx_rm_cnt_cycles_msb;
   reg_rx_rate_meter_ctrl;
   reg_rx_fm_bytes_expt_lsb; reg_rx_rm_bytes_expt_msb;
   reg_rx_rm_cnt_bytes_lsb; reg_rx_rm_cnt_bytes_msb;
   reg_rx_rm_cnt_cycles_lsb; reg_rx_rm_cnt_cycles_msb].

End Test.

(** The two register blocks. *)
Inductive block := MainBlock | TestBlock.

Definition block_members (b : block) : list member :=
  match b with
  | MainBlock => Main.main_uoe_registers
  | TestBlock => Test.test_uoe_registers
  end.

Definition all_registers : list member :=
  Main.main_uoe_registers ++ Test.test_uoe_registers.

(* ================================================================== *)
(** * Bit-field allocation *)

(** A field descriptor: where a named bit-field sits in its register. *)
Record field := mkfield { f_name : string; f_offset : Z; f_width : Z }.

(** The storage unit of [unsigned int] bit-fields, and of [regValue]. *)
Definition unit_bits : Z := 32.

(** C leaves to the implementation whether a bit-field that does not fit in
    what remains of the current unit overlaps the next unit or starts it.
    Both choices are modelled.  Bits are allocated from the low-order end,
    consecutive bit-fields in adjacent bits. *)
Inductive packing := Straddle | NextUnit.

Definition place (p : packing) (pos w : Z) : Z :=
  match p with
  | Straddle => pos
  | NextUnit =>
      if pos mod unit_bits + w >? unit_bits
      then unit_bits * (pos / unit_bits + 1)
      else pos
  end.

Fixpoint allocate (p : packing) (pos : Z) (decl : list bitfield) : list field :=
  match decl with
  | [] => []
  | d :: rest =>
      let off := place p pos (bf_width d) in
      mkfield (bf_name d) off (bf_width d)
        :: allocate p (off + bf_width d) rest
  end.

Definition fields_of (p : packing) (m : member) : list field :=
  allocate p 0 (member_decl m).

Definition lookup_field (p : packing) (m : member) (n : string) : option field :=
  find (fun f => String.eqb (f_name f) n) (fields_of p m).

(** Every field descriptor of both register maps. *)
Definition all_fields (p : packing) : list field :=
  flat_map (fields_of p) all_registers.

(** A descriptor that lies inside the 32-bit word [regValue]. *)
Definition within_word (f : field) : bool :=
  (0 <=? f_offset f) && (0 <=? f_width f)
  && (f_offset f + f_width f <=? unit_bits).

Definition ranges_disjoint (f g : field) : bool :=
  (f_offset f + f_width f <=? f_offset g)
  || (f_offset g + f_width g <=? f_offset f).

Fixpoint pairwise_disjoint (fs : list field) : bool :=
  match fs with
  | [] => true
  | f :: rest => forallb (ranges_disjoint f) rest && pairwise_disjoint rest
  end.

Definition total_width (m : member) : Z :=
  fold_right Z.add 0 (map bf_width (member_decl m)).

(** The layout invariant of one register: ranges pairwise disjoint, all
    inside the word, widths adding up to the 32 bits of [regValue]. *)
Definition register_ok (p : packing) (m : member) : bool :=
  pairwise_disjoint (fields_of p m)
  && forallb within_word (fields_of p m)
  && (total_width m =? unit_bits).

(** ** Layout of a block in memory *)

(** Bits taken by the struct of bit-fields, then bytes taken by the member:
    whole storage units, and at least the one of [regValue]. *)
Definition end_of (fs : list field) : Z :=
  fold_right (fun f acc => Z.max (f_offset f + f_width f) acc) 0 fs.

Definition member_size (p : packing) (m : member) : Z :=
  4 * Z.max 1 ((end_of (fields_of p m) + unit_bits - 1) / unit_bits).

Fixpoint member_offsets (p : packing) (at_ : Z) (ms : list member)
  : list (string * Z) :=
  match ms with
  | [] => []
  | m :: rest =>
      (member_name m, at_) :: member_offsets p (at_ + member_size p m) rest
  end.

Definition block_size (p : packing) (ms : list member) : Z :=
  fold_right Z.add 0 (map (member_size p) ms).

Definition offset_of (p : packing) (ms : list member) (n : string) : option Z :=
  option_map snd
    (find (fun e => String.eqb (fst e) n) (member_offsets p 0 ms)).

(* ================================================================== *)
(** * Register field codec *)

(** Reduction of a value to the 32 bits of [unsigned int]. *)
Definition wrap32 (x : Z) : Z := x mod 2 ^ 32.

Definition field_mask (f : field) : Z :=
  Z.shiftl (Z.ones (f_width f)) (f_offset f).

(** Modelled from the spec: the headers declare the fields but no accessor;
    [extract] is the codec's read, "the right-shifted, width-masked unsigned
    value". *)
Definition extract (raw : Z) (f : field) : Z :=
  Z.land (Z.shiftr raw (f_offset f)) (Z.ones (f_width f)).

(** Modelled from the spec: the codec's write, which "clears the field's
    bits in raw and OR-in shifts value (truncated to width bits) into
    place"; the result is a 32-bit register value. *)
Definition insert (raw : Z) (f : field) (v : Z) : Z :=
  wrap32
    (Z.lor (Z.land raw (Z.lnot (field_mask f)))
           (Z.shiftl (Z.land v (Z.ones (f_width f))) (f_offset f))).

Inductive codec_error := OutOfRange.

(** Modelled from the spec: the strict variant of the codec's write, which
    "fails with an OutOfRange condition if value exceeds 2^width - 1". *)
Definition insert_strict (raw : Z) (f : field) (v : Z) : codec_error + Z :=
  if v >? 2 ^ f_width f - 1 then inl OutOfRange else inr (insert raw f v).

(** Bit position [b] belongs to the field. *)
Definition in_range (f : field) (b : Z) : bool :=
  (f_offset f <=? b) && (b <? f_offset f + f_width f).

(** What every declaration gives: a non-negative offset, a positive width. *)
Definition declared_sane (f : field) : bool :=
  (0 <=? f_offset f) && (0 <? f_width f).

(* ================================================================== *)
(** * Interrupt registers *)

(** Both blocks declare four sibling registers [reg_interrupt_status],
    [reg_interrupt_enable], [reg_interrupt_clear] and [reg_interrupt_set];
    the field of source [s] in each of them is named [s] followed by the
    sibling's suffix. *)
Inductive irq_kind := IrqStatus | IrqEnable | IrqClear | IrqSet.

Definition irq_suffix (k : irq_kind) : string :=
  match k with
  | IrqStatus => "_status"
  | IrqEnable => "_enable"
  | IrqClear => "_clear"
  | IrqSet => "_set"
  end.

Definition irq_register (b : block) (k : irq_kind) : member :=
  match b, k with
  | MainBlock, IrqStatus => Main.reg_interrupt_status
  | MainBlock, IrqEnable => Main.reg_interrupt_enable
  | MainBlock, IrqClear => Main.reg_interrupt_clear
  | MainBlock, IrqSet => Main.reg_interrupt_set
  | TestBlock, IrqStatus => Test.reg_interrupt_status
  | TestBlock, IrqEnable => Test.reg_interrupt_enable
  | TestBlock, IrqClear => Test.reg_interrupt_clear
  | TestBlock, IrqSet => Test.reg_interrupt_set
  end.

Definition is_padding (n : string) : bool := String.prefix "padding" n.

Definition strip_suffix (suf s : string) : option string :=
  let ls := String.length s in
  let lf := String.length suf in
  if (lf <=? ls)%nat && String.eqb (substring (ls - lf) lf s) suf
  then Some (substring 0 (ls - lf) s)
  else None.

(** The named (non-padding) bit-fields of a register. *)
Definition named_fields (m : member) : list bitfield :=
  filter (fun d => negb (is_padding (bf_name d))) (member_decl m).

(** The source a field of sibling [k] stands for; a field without the
    sibling's suffix stands for itself. *)
Definition source_name (k : irq_kind) (n : string) : string :=
  match strip_suffix (irq_suffix k) n with
  | Some s => s
  | None => n
  end.

Definition sources_in (b : block) (k : irq_kind) : list string :=
  map (fun d => source_name k (bf_name d)) (named_fields (irq_register b k)).

(** The interrupt sources of a block, read off its status register. *)
Definition irq_sources (b : block) : list string := sources_in b IrqStatus.

Definition irq_field (p : packing) (b : block) (k : irq_kind) (s : string)
  : option field :=
  lookup_field p (irq_register b k) (s ++ irq_suffix k).

Definition irq_bit (p : packing) (b : block) (k : irq_kind) (s : string)
  : option Z :=
  option_map f_offset (irq_field p b k s).

(** ** Interrupt aggregator *)
Module Aggregator.

(** Modelled from the spec: the hardware behind the four sibling
    registers is not part of the headers.  One aggregator holds a status
    word and an enable word; the clear and set registers hold nothing,
    a write to them acts on the status word. *)
Record state := mkstate { status : Z; enable : Z }.

(** Modelled from the spec: a bus write of word [w] to sibling [k].
    Status is read-only; enable is stored; clear is write-1-to-clear and
    set is write-1-to-set on the status word. *)
Definition write (k : irq_kind) (w : Z) (st : state) : state :=
  match k with
  | IrqStatus => st
  | IrqEnable => mkstate (status st) (wrap32 w)
  | IrqClear => mkstate (wrap32 (Z.land (status st) (Z.lnot w))) (enable st)
  | IrqSet => mkstate (wrap32 (Z.lor (status st) w)) (enable st)
  end.

(** Modelled from the spec: a bus read of sibling [k]; clear and set are
    self-clearing and read as zero. *)
Definition read (k : irq_kind) (st : state) : Z :=
  match k with
  | IrqStatus => status st
  | IrqEnable => enable st
  | IrqClear | IrqSet => 0
  end.

(** The two engines, each with its own aggregator. *)
Record system := mksystem { main_irq : state; test_irq : state }.

Definition get (b : block) (sys : system) : state :=
  match b with MainBlock => main_irq sys | TestBlock => test_irq sys end.

Definition update (b : block) (g : state -> state) (sys : system) : system :=
  match b with
  | MainBlock => mksystem (g (main_irq sys)) (test_irq sys)
  | TestBlock => mksystem (main_irq sys) (g (test_irq sys))
  end.

Definition other (b : block) : block :=
  match b with MainBlock => TestBlock | TestBlock => MainBlock end.

(** Modelled from the spec: the hardware asserting source bits [w]. *)
Definition hw_assert (b : block) (w : Z) (sys : system) : system :=
  update b (fun st => mkstate (wrap32 (Z.lor (status st) w)) (enable st)) sys.

Section Api.

Variable p : packing.
Variable b : block.

(** Modelled from the spec: "is_pending(source) -> bool (reads status
    register bit)". *)
Definition is_pending (s : string) (sys : system) : option bool :=
  option_map (fun f => extract (read IrqStatus (get b sys)) f =? 1)
             (irq_field p b IrqStatus s).

(** Modelled from the spec: "set_enabled(source, bool) (writes enable
    register bit)", a read-modify-write of the enable register. *)
Definition set_enabled (s : string) (on : bool) (sys : system)
  : option system :=
  option_map
    (fun f =>
       update b
         (fun st =>
            write IrqEnable (insert (read IrqEnable st) f (Z.b2z on)) st)
         sys)
    (irq_field p b IrqEnable s).

(** Modelled from the spec: "clear(source) (writes a 1 to the
    corresponding bit in the clear register)". *)
Definition clear (s : string) (sys : system) : option system :=
  option_map (fun f => update b (write IrqClear (insert 0 f 1)) sys)
             (irq_field p b IrqClear s).

(** Modelled from the spec: "force(source) (writes the set
    register)". *)
Definition force (s : string) (sys : system) : option system :=
  option_map (fun f => update b (write IrqSet (insert 0 f 1)) sys)
             (irq_field p b IrqSet s).

Definition is_enabled (s : string) (sys : system) : option bool :=
  option_map (fun f => extract (read IrqEnable (get b sys)) f =? 1)
             (irq_field p b IrqEnable s).

End Api.

End Aggregator.

(* ================================================================== *)
(** * Whole registers and whole blocks *)

(** The struct view of a register value: the value of every field, in
    declaration order. *)
Definition read_fields (fs : list field) (raw : Z) : list Z :=
  map (extract raw) fs.

(** Assigning the fields one after the other, in declaration order. *)
Fixpoint write_fields (fs : list field) (vs : list Z) (raw : Z) : Z :=
  match fs, vs with
  | f :: fs', v :: vs' => write_fields fs' vs' (insert raw f v)
  | _, _ => raw
  end.

(** The fields a bit position belongs to. *)
Definition covering (fs : list field) (b : Z) : list field :=
  filter (fun f => in_range f b) fs.

Definition field_eqb (f g : field) : bool :=
  String.eqb (f_name f) (f_name g)
  && (f_offset f =? f_offset g) && (f_width f =? f_width g).

Definition word_bits : list Z := map Z.of_nat (seq 0 32).

(** Values wider than a register are declared as a register whose only
    field ends in [_lsb], followed by a register whose first field has the
    same stem and ends in [_msb].  [wide_values] lists them with their
    total width. *)
Fixpoint wide_values (ms : list member) : list (string * Z) :=
  match ms with
  | [] => []
  | m1 :: rest =>
      match member_decl m1, rest with
      | [d1], m2 :: _ =>
          match strip_suffix "_lsb" (bf_name d1),
                option_map (fun d2 => (strip_suffix "_msb" (bf_name d2),
                                       bf_width d2))
                           (hd_error (member_decl m2))
          with
          | Some s1, Some (Some s2, w2) =>
              if String.eqb s1 s2
              then (s1, bf_width d1 + w2) :: wide_values rest
              else wide_values rest
          | _, _ => wide_values rest
          end
      | _, _ => wide_values rest
      end
  end.

(** The stems of all declared fields of a block that end in [suf]. *)
Definition stems_with (suf : string) (ms : list member) : list string :=
  flat_map
    (fun m =>
       flat_map
         (fun d => match strip_suffix suf (bf_name d) with
                   | Some s => [s]
                   | None => []
                   end)
         (member_decl m))
    ms.

Definition widths_nonneg (decl : list bitfield) : Prop :=
  Forall (fun d => 0 <= bf_width d) decl.

(** Fields with a non-negative offset and width. *)
Definition all_sane (fs : list field) : Prop :=
  forall f, In f fs -> 0 <= f_offset f /\ 0 <= f_width f.

(** A list of names without repetition. *)
Fixpoint nodupb (l : list string) : bool :=
  match l with
  | [] => true
  | x :: t => negb (existsb (String.eqb x) t) && nodupb t
  end.

(** The names of the named (non-padding) fields of a list of members. *)
Definition named_field_names (ms : list member) : list string :=
  flat_map (fun m => map bf_name (named_fields m)) ms.

(** The names that occur in both lists. *)
Definition common_names (l1 l2 : list string) : list string :=
  filter (fun x => existsb (String.eqb x) l2) l1.

(** The declared fields of a member before the last one. *)
Definition before_last (m : member) : list bitfield :=
  removelast (member_decl m).

(* ================================================================== *)
(** * Bit-level facts about the codec *)

Section CodecBits.

Variable f : field.
Hypothesis off_nonneg : 0 <= f_offset f.
Hypothesis width_nonneg : 0 <= f_width f.

Lemma field_mask_testbit (b : Z) :
  0 <= b -> Z.testbit (field_mask f) b = in_range f b.
Proof using off_nonneg width_nonneg.
  intros Hb. unfold field_mask, in_range.
  rewrite Z.shiftl_spec by assumption.
  destruct (Z.leb_spec (f_offset f) b) as [Hle | Hlt]; simpl.
  - rewrite Z.testbit_ones_nonneg by lia.
    destruct (Z.ltb_spec (b - f_offset f) (f_width f));
      destruct (Z.ltb_spec b (f_offset f + f_width f)); trivial; lia.
  - apply Z.testbit_neg_r. lia.
Qed.

Lemma shifted_value_testbit (v b : Z) :
  0 <= b ->
  Z.testbit (Z.shiftl (Z.land v (Z.ones (f_width f))) (f_offset f)) b
  = in_range f b && Z.testbit v (b - f_offset f).
Proof using off_nonneg width_nonneg.
  intros Hb. unfold in_range.
  rewrite Z.shiftl_spec by assumption.
  destruct (Z.leb_spec (f_offset f) b) as [Hle | Hlt]; simpl.
  - rewrite Z.land_spec, Z.testbit_ones_nonneg by lia.
    destruct (Z.ltb_spec (b - f_offset f) (f_width f));
      destruct (Z.ltb_spec b (f_offset f + f_width f));
      try lia; simpl; auto using andb_true_r, andb_false_r.
  - apply Z.testbit_neg_r. lia.
Qed.

(** Bit [b] of the written word: inside the field it is the matching bit
    of the value, elsewhere the old bit; nothing survives above bit 31. *)
Lemma insert_testbit (raw v b : Z) :
  0 <= b ->
  Z.testbit (insert raw f v) b
  = (b <? 32) && (if in_range f b then Z.testbit v (b - f_offset f)
                  else Z.testbit raw b).
Proof using off_nonneg width_nonneg.
  intros Hb. unfold insert, wrap32.
  rewrite Z.testbit_mod_pow2 by lia. f_equal.
  rewrite Z.lor_spec, Z.land_spec, Z.lnot_spec by assumption.
  rewrite field_mask_testbit, shifted_value_testbit by assumption.
  destruct (in_range f b); simpl.
  - now rewrite andb_false_r.
  - now rewrite andb_true_r, orb_false_r.
Qed.

Lemma extract_testbit (raw b : Z) :
  0 <= b ->
  Z.testbit (extract raw f) b
  = (b <? f_width f) && Z.testbit raw (b + f_offset f).
Proof using width_nonneg.
  intros Hb. unfold extract.
  rewrite Z.land_spec, Z.shiftr_spec, Z.testbit_ones_nonneg by lia.
  apply andb_comm.
Qed.

Lemma extract_range (raw : Z) : 0 <= extract raw f <= 2 ^ f_width f - 1.
Proof using width_nonneg.
  unfold extract. rewrite Z.land_ones by assumption.
  pose proof (Z.mod_pos_bound (Z.shiftr raw (f_offset f)) (2 ^ f_width f)).
  assert (0 < 2 ^ f_width f) by (apply Z.pow_pos_nonneg; lia). lia.
Qed.

Lemma insert_range (raw v : Z) : 0 <= insert raw f v < 2 ^ 32.
Proof.
  unfold insert, wrap32. apply Z.mod_pos_bound. reflexivity.
Qed.

(** Writing a field and reading it back, for a field inside the word. *)
Lemma extract_insert (raw v : Z) :
  f_offset f + f_width f <= 32 ->
  extract (insert raw f v) f = v mod 2 ^ f_width f.
Proof using off_nonneg width_nonneg.
  intros Hin. rewrite <- Z.land_ones by assumption.
  apply Z.bits_inj'. intros b Hb.
  rewrite extract_testbit, insert_testbit by lia.
  rewrite Z.land_spec, Z.testbit_ones_nonneg by lia.
  unfold in_range.
  destruct (Z.ltb_spec b (f_width f)) as [Hlt | Hge]; simpl.
  - replace (b + f_offset f <? 32) with true
      by (symmetry; apply Z.ltb_lt; lia).
    replace (f_offset f <=? b + f_offset f) with true
      by (symmetry; apply Z.leb_le; lia).
    replace (b + f_offset f <? f_offset f + f_width f) with true
      by (symmetry; apply Z.ltb_lt; lia).
    simpl. rewrite andb_true_r. f_equal. lia.
  - now rewrite andb_false_r.
Qed.

(** Bits outside the field keep their value. *)
Lemma insert_frame (raw v b : Z) :
  0 <= raw < 2 ^ 32 ->
  in_range f b = false ->
  Z.testbit (insert raw f v) b = Z.testbit raw b.
Proof using off_nonneg width_nonneg.
  intros Hraw Hout.
  destruct (Z.lt_ge_cases b 0) as [Hneg | Hb].
  - now rewrite !Z.testbit_neg_r.
  - rewrite insert_testbit, Hout by assumption.
    destruct (Z.ltb_spec b 32) as [Hlt | Hge]; simpl; trivial.
    symmetry. destruct (Z.eq_dec raw 0) as [-> | Hnz].
    + apply Z.bits_0.
    + apply Z.bits_above_log2; try lia.
      assert (Z.log2 raw < 32) by (apply Z.log2_lt_pow2; lia). lia.
Qed.

(** The write only sees the low [f_width f] bits of the value. *)
Lemma insert_truncates (raw v : Z) :
  insert raw f v = insert raw f (v mod 2 ^ f_width f).
Proof using width_nonneg.
  unfold insert. rewrite <- (Z.land_ones v) by assumption.
  now rewrite <- Z.land_assoc, Z.land_diag.
Qed.

End CodecBits.

(* ================================================================== *)
(** * Facts about the declared tables *)

Lemma all_fields_sane (p : packing) (f : field) :
  In f (all_fields p) -> 0 <= f_offset f /\ 0 < f_width f.
Proof.
  intros Hin.
  assert (Hall : forallb declared_sane (all_fields p) = true)
    by (destruct p; vm_compute; reflexivity).
  rewrite forallb_forall in Hall. specialize (Hall f Hin).
  unfold declared_sane in Hall.
  apply andb_true_iff in Hall as [Ho Hw].
  apply Z.leb_le in Ho. apply Z.ltb_lt in Hw. now split.
Qed.

Lemma within_word_spec (f : field) :
  within_word f = true ->
  0 <= f_offset f /\ 0 <= f_width f /\ f_offset f + f_width f <= 32.
Proof.
  unfold within_word, unit_bits. intros H.
  apply andb_true_iff in H as [H H3]. apply andb_true_iff in H as [H1 H2].
  apply Z.leb_le in H1, H2, H3. auto.
Qed.

(** The round trip holds at every declared field that lies inside the
    register word. *)
Lemma roundtrip_within_word (p : packing) (f : field) (raw v : Z) :
  In f (all_fields p) -> within_word f = true ->
  extract (insert raw f v) f = v mod 2 ^ f_width f.
Proof.
  intros _ Hw. apply within_word_spec in Hw as (Ho & Hwd & Hfit).
  now apply extract_insert.
Qed.

(** The declared fields that do not lie inside their register word. *)
Lemma fields_outside_word (p : packing) :
  map f_name (filter (fun f => negb (within_word f)) (all_fields p))
  = ["gen_frame_size_static"; "gen_rate_limitation";
     "chk_frame_size_static"; "chk_rate_limitation"]%string.
Proof. destruct p; vm_compute; reflexivity. Qed.

Lemma in_all_fields (p : packing) (m : member) (f : field) :
  In m all_registers -> In f (fields_of p m) -> In f (all_fields p).
Proof.
  intros Hm Hf. unfold all_fields. apply in_flat_map. now exists m.
Qed.

Lemma lookup_field_In (p : packing) (m : member) (n : string) (f : field) :
  lookup_field p m n = Some f -> In f (fields_of p m).
Proof.
  unfold lookup_field. intros H. now apply find_some in H.
Qed.

Lemma main_in_all (m : member) :
  In m Main.main_uoe_registers -> In m all_registers.
Proof. intros H. unfold all_registers. apply in_or_app. now left. Qed.

Lemma test_in_all (m : member) :
  In m Test.test_uoe_registers -> In m all_registers.
Proof. intros H. unfold all_registers. apply in_or_app. now right. Qed.

(* ================================================================== *)
(** * The codec over the register maps *)

(** C1.  Writing a field and reading it back should give the value modulo
    [2^w] at every declared field.  At [gen_frame_size_static] of the test
    block's [reg_gen_config] it does not: the fields declared before it
    take 17 bits, so its 16 bits do not fit in the 32-bit register, and
    writing 32768 into a zero register reads back 0, under either packing
    rule. *)
Theorem C1_roundtrip_breaks_at_gen_frame_size_static (p : packing) :
  exists f,
    lookup_field p Test.reg_gen_config "gen_frame_size_static" = Some f
    /\ In f (all_fields p)
    /\ f_width f = 16
    /\ 32768 mod 2 ^ f_width f = 32768
    /\ extract (insert 0 f 32768) f = 0.
Proof.
  destruct p; eexists; (split; [vm_compute; reflexivity |]);
    (split; [| repeat split]).
  - apply (in_all_fields Straddle Test.reg_gen_config).
    + apply test_in_all. simpl. tauto.
    + simpl. tauto.
  - apply (in_all_fields NextUnit Test.reg_gen_config).
    + apply test_in_all. simpl. tauto.
    + vm_compute. tauto.
Qed.

(** C2.  For every declared field, every 32-bit register value, every
    value written and every bit position outside the field's range, the
    written register has the same bit as the old one. *)
Theorem C2_insert_keeps_outside_bits
  (p : packing) (f : field) (raw v b : Z) :
  In f (all_fields p) ->
  0 <= raw < 2 ^ 32 ->
  b < f_offset f \/ f_offset f + f_width f <= b ->
  Z.testbit (insert raw f v) b = Z.testbit raw b.
Proof.
  intros Hin Hraw Hout.
  destruct (all_fields_sane p f Hin) as [Ho Hw].
  apply insert_frame; try lia.
  unfold in_range.
  destruct Hout as [Hlo | Hhi].
  - replace (f_offset f <=? b) with false; trivial.
    symmetry. apply Z.leb_gt. exact Hlo.
  - replace (b <? f_offset f + f_width f) with false.
    + apply andb_false_r.
    + symmetry. apply Z.ltb_ge. exact Hhi.
Qed.

Lemma C2_insert_keeps_outside_bits_witness :
  In (mkfield "arp_tryings" 12 4) (all_fields Straddle)
  /\ 0 <= 4294967295 < 2 ^ 32
  /\ (3 < 12 \/ 12 + 4 <= 3)
  /\ Z.testbit (insert 4294967295 (mkfield "arp_tryings" 12 4) 0) 3
     = Z.testbit 4294967295 3.
Proof.
  assert (Hin : In (mkfield "arp_tryings" 12 4) (all_fields Straddle)).
  { apply (in_all_fields Straddle Main.reg_arp_configuration).
    - apply main_in_all. simpl. tauto.
    - simpl. tauto. }
  split; [exact Hin |]. split; [lia |]. split; [left; lia |].
  apply (C2_insert_keeps_outside_bits Straddle _ _ _ _ Hin).
  - lia.
  - left. simpl. lia.
Defined.

(** C3.  Every register should have pairwise disjoint field ranges whose
    widths add up to 32.  Two registers of the test block do not:
    [reg_gen_config] and [reg_chk_config] each declare 1 + 16 + 16 + 8 = 41
    bits; every other register of both blocks satisfies the invariant. *)
Theorem C3_registers_breaking_the_layout_invariant (p : packing) :
  map member_name
      (filter (fun m => negb (register_ok p m)) all_registers)
  = ["reg_gen_config"; "reg_chk_config"]%string
  /\ total_width Test.reg_gen_config = 41
  /\ total_width Test.reg_chk_config = 41.
Proof. destruct p; vm_compute; repeat split; reflexivity. Qed.

(** C7.  In [reg_arp_configuration], [arp_tryings] is 4 bits wide and reads
    as a value in 0..15; [arp_timeout_ms] is 12 bits wide and reads as a
    value in 0..4095; both upper ends are reached. *)
Theorem C7_arp_field_ranges (p : packing) :
  lookup_field p Main.reg_arp_configuration "arp_tryings"
  = Some (mkfield "arp_tryings" 12 4)
  /\ lookup_field p Main.reg_arp_configuration "arp_timeout_ms"
     = Some (mkfield "arp_timeout_ms" 0 12)
  /\ (forall raw, 0 <= extract raw (mkfield "arp_tryings" 12 4) <= 15)
  /\ (forall raw, 0 <= extract raw (mkfield "arp_timeout_ms" 0 12) <= 4095)
  /\ extract (insert 0 (mkfield "arp_tryings" 12 4) 15)
             (mkfield "arp_tryings" 12 4) = 15
  /\ extract (insert 0 (mkfield "arp_timeout_ms" 0 12) 4095)
             (mkfield "arp_timeout_ms" 0 12) = 4095.
Proof.
  split; [destruct p; reflexivity |].
  split; [destruct p; reflexivity |].
  split; [| split; [| split; reflexivity]].
  - intros raw. apply (extract_range (mkfield "arp_tryings" 12 4)).
    simpl. lia.
  - intros raw. apply (extract_range (mkfield "arp_timeout_ms" 0 12)).
    simpl. lia.
Qed.

(** C9.  [T_BIT] has exactly the four values [no_bit], [pbit], [ibit] and
    [cbit], encoded as 0, 1, 2 and 3. *)
Theorem C9_T_BIT_encoding :
  (forall t : Enums.T_BIT,
      In t [Enums.no_bit; Enums.pbit; Enums.ibit; Enums.cbit])
  /\ NoDup [Enums.no_bit; Enums.pbit; Enums.ibit; Enums.cbit]
  /\ Enums.T_BIT_value Enums.no_bit = 0
  /\ Enums.T_BIT_value Enums.pbit = 1
  /\ Enums.T_BIT_value Enums.ibit = 2
  /\ Enums.T_BIT_value Enums.cbit = 3.
Proof.
  split; [intros []; simpl; tauto |].
  split; [| repeat split].
  repeat constructor; simpl; intuition discriminate.
Qed.

(** C10.  In the main block the bare word [padding15] comes right after
    [reg_config_done]; [reg_monitoring_crc_filter] is therefore the 17th
    word, at byte offset 0x40; the block is 25 consecutive 32-bit words,
    100 bytes. *)
Theorem C10_main_block_layout (p : packing) :
  nth_error Main.main_uoe_registers 14 = Some Main.reg_config_done
  /\ nth_error Main.main_uoe_registers 15 = Some (word "padding15")
  /\ nth_error Main.main_uoe_registers 16
     = Some Main.reg_monitoring_crc_filter
  /\ offset_of p Main.main_uoe_registers "reg_monitoring_crc_filter"
     = Some 0x40
  /\ map snd (member_offsets p 0 Main.main_uoe_registers)
     = map (fun i => 4 * Z.of_nat i) (seq 0 25)
  /\ map (member_size p) Main.main_uoe_registers = repeat 4 25%nat
  /\ block_size p Main.main_uoe_registers = 100.
Proof. destruct p; vm_compute; repeat split; reflexivity. Qed.

Lemma insert_strict_accepts (raw : Z) (f : field) (v : Z) :
  v <= 2 ^ f_width f - 1 -> insert_strict raw f v = inr (insert raw f v).
Proof.
  unfold insert_strict. intros Hv.
  destruct (Z.gtb_spec v (2 ^ f_width f - 1)); trivial; lia.
Qed.




(** A strict write that succeeds stores the value itself: a field inside
    the word reads back exactly what was written. *)
Lemma insert_strict_exact (raw : Z) (f : field) (v : Z) :
  within_word f = true -> 0 <= v <= 2 ^ f_width f - 1 ->
  exists raw', insert_strict raw f v = inr raw' /\ extract raw' f = v.
Proof.
  intros Hw Hv. apply within_word_spec in Hw as (Ho & Hwd & Hfit).
  exists (insert raw f v). split.
  - apply insert_strict_accepts. lia.
  - rewrite extract_insert by assumption. apply Z.mod_small. lia.
Qed.

(* ================================================================== *)
(** * Interrupt registers: positions and the aggregator *)

(** Each source of a block sits at one bit position, below 32, in all four
    sibling registers, as a one-bit field named after the sibling. *)
Lemma irq_field_position (p : packing) (b : block) (s : string) :
  In s (irq_sources b) ->
  exists pos,
    0 <= pos < 32
    /\ forall k, irq_field p b k s = Some (mkfield (s ++ irq_suffix k) pos 1).
Proof.
  intros Hs. destruct p, b; vm_compute in Hs;
    repeat (destruct Hs as [<- | Hs]; [| try contradiction]);
    try contradiction;
    eexists; (split; [| intros k; destruct k; reflexivity]);
    vm_compute; (split; [discriminate | reflexivity]).
Qed.

Lemma sources_in_siblings (b : block) (k : irq_kind) :
  sources_in b k = irq_sources b.
Proof. destruct b, k; vm_compute; reflexivity. Qed.

(** C4.  Every interrupt source of a block has, in each of the four sibling
    registers of that block, the bit position it has in the status
    register; the four siblings carry the same sources. *)
Theorem C4_sibling_bit_positions
  (p : packing) (b : block) (k : irq_kind) (s : string) :
  In s (irq_sources b) ->
  sources_in b k = irq_sources b
  /\ exists pos,
      irq_bit p b IrqStatus s = Some pos /\ irq_bit p b k s = Some pos.
Proof.
  intros Hs. split; [apply sources_in_siblings |].
  destruct (irq_field_position p b s Hs) as (pos & _ & Hpos).
  exists pos. unfold irq_bit. now rewrite !Hpos.
Qed.

Lemma C4_sibling_bit_positions_witness :
  In "irq_chk_done"%string (irq_sources TestBlock)
  /\ irq_bit NextUnit TestBlock IrqStatus "irq_chk_done" = Some 2
  /\ irq_bit NextUnit TestBlock IrqClear "irq_chk_done" = Some 2.
Proof.
  assert (Hs : In "irq_chk_done"%string (irq_sources TestBlock))
    by (vm_compute; tauto).
  split; [exact Hs |].
  destruct (C4_sibling_bit_positions NextUnit TestBlock IrqClear _ Hs)
    as (_ & pos & Hst & Hclr).
  split.
  - reflexivity.
  - rewrite Hclr, <- Hst. reflexivity.
Defined.

(** ** Single-bit fields *)

Lemma extract_bit (n : string) (pos x : Z) :
  0 <= pos -> extract x (mkfield n pos 1) = Z.b2z (Z.testbit x pos).
Proof.
  intros Hpos. unfold extract. simpl f_offset. simpl f_width.
  rewrite Z.land_ones by lia. change (2 ^ 1) with 2.
  rewrite <- Z.bit0_mod, Z.shiftr_spec by lia. reflexivity.
Qed.

Lemma bit_is_one (t : bool) : (Z.b2z t =? 1) = t.
Proof. now destruct t. Qed.

Lemma insert_one_testbit (n : string) (pos : Z) :
  0 <= pos < 32 -> Z.testbit (insert 0 (mkfield n pos 1) 1) pos = true.
Proof.
  intros Hpos. rewrite insert_testbit by (simpl; lia).
  unfold in_range. simpl f_offset. simpl f_width.
  replace (pos <? 32) with true by (symmetry; apply Z.ltb_lt; lia).
  replace (pos <=? pos) with true by (symmetry; apply Z.leb_le; lia).
  replace (pos <? pos + 1) with true by (symmetry; apply Z.ltb_lt; lia).
  now rewrite Z.sub_diag.
Qed.

Module AggregatorFacts.
Import Aggregator.

Lemma get_update_same (b : block) (g : state -> state) (sys : system) :
  get b (update b g sys) = g (get b sys).
Proof. now destruct b. Qed.

Lemma get_update_other (b : block) (g : state -> state) (sys : system) :
  get (other b) (update b g sys) = get (other b) sys.
Proof. now destruct b. Qed.

Section OneSource.

Variable p : packing.
Variable b : block.
Variable s : string.
Variable pos : Z.
Hypothesis pos_range : 0 <= pos < 32.
Hypothesis at_pos :
  forall k, irq_field p b k s = Some (mkfield (s ++ irq_suffix k) pos 1).

Lemma is_pending_bit (sys : system) :
  is_pending p b s sys = Some (Z.testbit (status (get b sys)) pos).
Proof using pos_range at_pos.
  unfold is_pending. rewrite at_pos. simpl.
  now rewrite extract_bit, bit_is_one by lia.
Qed.

Lemma force_pending (sys : system) :
  exists sys',
    force p b s sys = Some sys' /\ is_pending p b s sys' = Some true.
Proof using pos_range at_pos.
  unfold force. rewrite at_pos. simpl. eexists. split; [reflexivity |].
  rewrite is_pending_bit, get_update_same. simpl. f_equal.
  unfold wrap32. rewrite Z.testbit_mod_pow2, Z.lor_spec by lia.
  rewrite insert_one_testbit by assumption.
  rewrite orb_true_r, andb_true_r. apply Z.ltb_lt. lia.
Qed.

Lemma clear_not_pending (sys : system) :
  exists sys',
    clear p b s sys = Some sys' /\ is_pending p b s sys' = Some false.
Proof using pos_range at_pos.
  unfold clear. rewrite at_pos. simpl. eexists. split; [reflexivity |].
  rewrite is_pending_bit, get_update_same. simpl. f_equal.
  unfold wrap32.
  rewrite Z.testbit_mod_pow2, Z.land_spec, Z.lnot_spec by lia.
  rewrite insert_one_testbit by assumption. simpl.
  now rewrite !andb_false_r.
Qed.

Lemma set_enabled_keeps_pending (on : bool) (sys : system) :
  exists sys',
    set_enabled p b s on sys = Some sys'
    /\ is_pending p b s sys' = is_pending p b s sys.
Proof using pos_range at_pos.
  unfold set_enabled. rewrite at_pos. simpl. eexists.
  split; [reflexivity |].
  now rewrite !is_pending_bit, get_update_same.
Qed.

Lemma set_enabled_enables (on : bool) (sys : system) :
  exists sys',
    set_enabled p b s on sys = Some sys'
    /\ is_enabled p b s sys' = Some on.
Proof using pos_range at_pos.
  unfold set_enabled, is_enabled. rewrite at_pos. simpl. eexists.
  split; [reflexivity |].
  rewrite get_update_same. simpl. f_equal.
  unfold wrap32. rewrite Z.mod_small by (apply insert_range).
  rewrite (extract_insert (mkfield (s ++ "_enable") pos 1))
    by (simpl; lia).
  simpl f_width. now destruct on.
Qed.

(** A hardware assertion after the clear makes the source pending
    again: the clear only speaks for the moment of the write. *)
Lemma hw_assert_pending (sys : system) :
  is_pending p b s (hw_assert b (Z.shiftl 1 pos) sys) = Some true.
Proof using pos_range at_pos.
  rewrite is_pending_bit. unfold hw_assert.
  rewrite get_update_same. simpl. f_equal.
  unfold wrap32. rewrite Z.testbit_mod_pow2, Z.lor_spec by lia.
  rewrite Z.shiftl_spec, Z.sub_diag by lia. simpl.
  rewrite orb_true_r, andb_true_r. apply Z.ltb_lt. lia.
Qed.

End OneSource.

(** An operation of one block's aggregator leaves the other block's
    aggregator as it was. *)
Lemma force_frame p b s sys sys' :
  force p b s sys = Some sys' -> get (other b) sys' = get (other b) sys.
Proof.
  unfold force. destruct (irq_field p b IrqSet s); simpl; [| discriminate].
  intros [= <-]. apply get_update_other.
Qed.

Lemma clear_frame p b s sys sys' :
  clear p b s sys = Some sys' -> get (other b) sys' = get (other b) sys.
Proof.
  unfold clear. destruct (irq_field p b IrqClear s); simpl; [| discriminate].
  intros [= <-]. apply get_update_other.
Qed.

Lemma set_enabled_frame p b s on sys sys' :
  set_enabled p b s on sys = Some sys' ->
  get (other b) sys' = get (other b) sys.
Proof.
  unfold set_enabled.
  destruct (irq_field p b IrqEnable s); simpl; [| discriminate].
  intros [= <-]. apply get_update_other.
Qed.

End AggregatorFacts.

(** C5.  For every interrupt source [s] of a block: after [force s] the
    source is pending; after [clear s], with no hardware assertion in
    between, it is not pending; [set_enabled s false] (and [true] alike)
    leaves its pending state as it was. *)
Theorem C5_force_clear_enable
  (p : packing) (b : block) (s : string) (sys : Aggregator.system) :
  In s (irq_sources b) ->
  (exists sys', Aggregator.force p b s sys = Some sys'
                /\ Aggregator.is_pending p b s sys' = Some true)
  /\ (exists sys', Aggregator.clear p b s sys = Some sys'
                   /\ Aggregator.is_pending p b s sys' = Some false)
  /\ (forall on, exists sys',
         Aggregator.set_enabled p b s on sys = Some sys'
         /\ Aggregator.is_pending p b s sys'
            = Aggregator.is_pending p b s sys).
Proof.
  intros Hs.
  destruct (irq_field_position p b s Hs) as (pos & Hrange & Hpos).
  split; [| split].
  - now apply AggregatorFacts.force_pending with (pos := pos).
  - now apply AggregatorFacts.clear_not_pending with (pos := pos).
  - intros on.
    now apply AggregatorFacts.set_enabled_keeps_pending with (pos := pos).
Qed.

Lemma C5_force_clear_enable_witness :
  In "irq_arp_error"%string (irq_sources MainBlock)
  /\ (exists sys',
         Aggregator.force Straddle MainBlock "irq_arp_error"
           (Aggregator.mksystem (Aggregator.mkstate 16 0) (Aggregator.mkstate 0 0)) = Some sys'
         /\ Aggregator.is_pending Straddle MainBlock "irq_arp_error" sys'
            = Some true)
  /\ (exists sys',
         Aggregator.clear Straddle MainBlock "irq_arp_error"
           (Aggregator.mksystem (Aggregator.mkstate 16 0) (Aggregator.mkstate 0 0)) = Some sys'
         /\ Aggregator.is_pending Straddle MainBlock "irq_arp_error" sys'
            = Some false)
  /\ (exists sys',
         Aggregator.set_enabled Straddle MainBlock "irq_arp_error" false
           (Aggregator.mksystem (Aggregator.mkstate 16 0) (Aggregator.mkstate 0 0)) = Some sys'
         /\ Aggregator.is_pending Straddle MainBlock "irq_arp_error" sys'
            = Some true).
Proof.
  assert (Hs : In "irq_arp_error"%string (irq_sources MainBlock))
    by (vm_compute; tauto).
  split; [exact Hs |].
  destruct (C5_force_clear_enable Straddle MainBlock _
              (Aggregator.mksystem (Aggregator.mkstate 16 0) (Aggregator.mkstate 0 0)) Hs)
    as (Hforce & Hclear & Hen).
  split; [exact Hforce |]. split; [exact Hclear |].
  destruct (Hen false) as (sys' & Hset & Hpend).
  exists sys'. split; [exact Hset |].
  rewrite Hpend. reflexivity.
Defined.

(** C8.  Each of the four interrupt registers of the main block carries 9
    named sources, each of the test block 10; no interrupt register and no
    source name is shared between the two blocks; the aggregators of the
    two blocks are two separate states, and an operation on one leaves the
    other unchanged. *)
Theorem C8_source_counts_and_separation :
  (forall k, List.length (named_fields (irq_register MainBlock k)) = 9%nat)
  /\ (forall k, List.length (named_fields (irq_register TestBlock k)) = 10%nat)
  /\ (forall k k', irq_register MainBlock k <> irq_register TestBlock k')
  /\ existsb (fun s => existsb (String.eqb s) (irq_sources TestBlock))
             (irq_sources MainBlock) = false
  /\ (forall p b s on sys sys',
         Aggregator.force p b s sys = Some sys'
         \/ Aggregator.clear p b s sys = Some sys'
         \/ Aggregator.set_enabled p b s on sys = Some sys' ->
         Aggregator.get (Aggregator.other b) sys'
         = Aggregator.get (Aggregator.other b) sys).
Proof.
  split; [intros []; reflexivity |].
  split; [intros []; reflexivity |].
  split; [intros [] []; discriminate |].
  split; [reflexivity |].
  intros p b s on sys sys' [H | [H | H]].
  - now apply AggregatorFacts.force_frame in H.
  - now apply AggregatorFacts.clear_frame in H.
  - now apply AggregatorFacts.set_enabled_frame in H.
Qed.

Lemma C8_source_counts_and_separation_witness :
  Aggregator.force Straddle MainBlock "irq_arp_error"
    (Aggregator.mksystem (Aggregator.mkstate 0 0) (Aggregator.mkstate 5 1023))
  = Some (Aggregator.mksystem (Aggregator.mkstate 16 0) (Aggregator.mkstate 5 1023))
  /\ Aggregator.get TestBlock
       (Aggregator.mksystem (Aggregator.mkstate 16 0) (Aggregator.mkstate 5 1023))
     = Aggregator.get TestBlock
         (Aggregator.mksystem (Aggregator.mkstate 0 0) (Aggregator.mkstate 5 1023)).
Proof.
  assert (H : Aggregator.force Straddle MainBlock "irq_arp_error"
                (Aggregator.mksystem (Aggregator.mkstate 0 0) (Aggregator.mkstate 5 1023))
              = Some (Aggregator.mksystem (Aggregator.mkstate 16 0) (Aggregator.mkstate 5 1023)))
    by reflexivity.
  split; [exact H |].
  apply (proj2 (proj2 (proj2 (proj2 C8_source_counts_and_separation)))
           Straddle MainBlock "irq_arp_error"%string false _ _).
  left. exact H.
Defined.

(* ================================================================== *)
(** * The allocation rule *)

Lemma place_ge (p : packing) (pos w : Z) : 0 <= pos -> pos <= place p pos w.
Proof.
  intros Hpos. destruct p; unfold place, unit_bits; [lia |].
  destruct (pos mod 32 + w >? 32); [| lia].
  pose proof (Z.div_mod pos 32 ltac:(lia)).
  pose proof (Z.mod_pos_bound pos 32 ltac:(lia)). lia.
Qed.

Lemma allocate_offsets_ge (p : packing) (decl : list bitfield) :
  forall pos f,
    0 <= pos -> widths_nonneg decl ->
    In f (allocate p pos decl) -> pos <= f_offset f.
Proof.
  induction decl as [| d rest IH]; intros pos f Hpos Hw Hin; [contradiction |].
  inversion Hw as [| ? ? Hd Hrest]; subst.
  pose proof (place_ge p pos (bf_width d) Hpos) as Hge.
  destruct Hin as [<- | Hin]; [exact Hge |].
  apply IH in Hin; trivial; lia.
Qed.

(** Whatever is declared, with either packing rule, the allocated ranges
    do not overlap. *)
Lemma allocate_disjoint (p : packing) (decl : list bitfield) :
  forall pos,
    0 <= pos -> widths_nonneg decl ->
    pairwise_disjoint (allocate p pos decl) = true.
Proof.
  induction decl as [| d rest IH]; intros pos Hpos Hw; [reflexivity |].
  inversion Hw as [| ? ? Hd Hrest]; subst.
  pose proof (place_ge p pos (bf_width d) Hpos) as Hge.
  simpl. apply andb_true_iff. split.
  - apply forallb_forall. intros g Hg.
    apply allocate_offsets_ge in Hg; trivial; [| lia].
    unfold ranges_disjoint. apply orb_true_iff. left.
    apply Z.leb_le. exact Hg.
  - apply IH; trivial. lia.
Qed.

Lemma ranges_disjoint_sym (f g : field) :
  ranges_disjoint f g = ranges_disjoint g f.
Proof. unfold ranges_disjoint. apply orb_comm. Qed.

Lemma pairwise_disjoint_In (fs : list field) (f g : field) :
  pairwise_disjoint fs = true ->
  In f fs -> In g fs -> f <> g -> ranges_disjoint f g = true.
Proof.
  induction fs as [| h t IH]; intros Hd Hf Hg Hne; [contradiction |].
  simpl in Hd. apply andb_true_iff in Hd as [Hh Ht].
  rewrite forallb_forall in Hh.
  destruct Hf as [-> | Hf], Hg as [-> | Hg].
  - contradiction.
  - now apply Hh.
  - rewrite ranges_disjoint_sym. now apply Hh.
  - now apply IH.
Qed.

(** With no more than one storage unit to fill, the two packing rules
    place every field alike. *)
Lemma allocate_packing_irrelevant (decl : list bitfield) :
  forall pos,
    0 <= pos -> widths_nonneg decl ->
    pos + fold_right Z.add 0 (map bf_width decl) <= 32 ->
    allocate Straddle pos decl = allocate NextUnit pos decl.
Proof.
  induction decl as [| d rest IH]; intros pos Hpos Hw Hfit; [reflexivity |].
  inversion Hw as [| ? ? Hd Hrest]; subst.
  simpl in Hfit.
  assert (Hsum : 0 <= fold_right Z.add 0 (map bf_width rest)).
  { clear - Hrest. induction Hrest; simpl; lia. }
  assert (Hplace : place NextUnit pos (bf_width d) = pos).
  { unfold place, unit_bits.
    pose proof (Z.mod_le pos 32 Hpos ltac:(lia)).
    destruct (Z.gtb_spec (pos mod 32 + bf_width d) 32); [lia | reflexivity]. }
  cbn [allocate]. rewrite Hplace. cbn [place]. f_equal.
  apply IH; trivial; lia.
Qed.

Lemma declared_widths_nonneg (m : member) :
  In m all_registers -> widths_nonneg (member_decl m).
Proof.
  intros Hm.
  assert (Hall : forallb (fun m => forallb (fun d => 0 <=? bf_width d)
                                           (member_decl m))
                         all_registers = true) by (vm_compute; reflexivity).
  rewrite forallb_forall in Hall. specialize (Hall m Hm).
  rewrite forallb_forall in Hall.
  apply Forall_forall. intros d Hd. apply Z.leb_le. now apply Hall.
Qed.

Lemma fields_of_apart (p : packing) (m : member) (f g : field) :
  In m all_registers ->
  In f (fields_of p m) -> In g (fields_of p m) -> f <> g ->
  ranges_disjoint f g = true.
Proof.
  intros Hm Hf Hg Hne.
  apply (pairwise_disjoint_In (fields_of p m)); trivial.
  apply allocate_disjoint; [lia |]. now apply declared_widths_nonneg.
Qed.

(** X2.  For every register whose declared widths fit in 32 bits, that is
    every register but [reg_gen_config] and [reg_chk_config], the bit
    offsets do not depend on the packing rule of the compiler. *)
Theorem layout_independent_of_packing (m : member) :
  In m all_registers -> total_width m <= 32 ->
  fields_of Straddle m = fields_of NextUnit m.
Proof.
  intros Hm Hfit. unfold fields_of.
  apply allocate_packing_irrelevant; [lia | | exact Hfit].
  now apply declared_widths_nonneg.
Qed.

Lemma layout_independent_of_packing_witness :
  fields_of Straddle Main.reg_arp_configuration
  = fields_of NextUnit Main.reg_arp_configuration.
Proof.
  apply layout_independent_of_packing.
  - apply main_in_all. simpl. tauto.
  - vm_compute. discriminate.
Defined.

(* ================================================================== *)
(** * Every bit of a well-formed register has one owner *)

Lemma word_bits_In (b : Z) : 0 <= b < 32 -> In b word_bits.
Proof.
  intros Hb. unfold word_bits. apply in_map_iff.
  exists (Z.to_nat b). split; [lia |]. apply in_seq. lia.
Qed.

Lemma tiling_check (p : packing) :
  forallb
    (fun m =>
       implb (register_ok p m)
             (forallb (fun b => (List.length (covering (fields_of p m) b)
                                 =? 1)%nat)
                      word_bits))
    all_registers = true.
Proof. destruct p; vm_compute; reflexivity. Qed.

Lemma covering_one (p : packing) (m : member) (b : Z) :
  In m all_registers -> register_ok p m = true -> 0 <= b < 32 ->
  exists f, covering (fields_of p m) b = [f].
Proof.
  intros Hm Hok Hb.
  pose proof (tiling_check p) as Hall.
  rewrite forallb_forall in Hall. specialize (Hall m Hm).
  rewrite Hok in Hall. cbn [implb] in Hall.
  rewrite forallb_forall in Hall.
  specialize (Hall b (word_bits_In b Hb)).
  apply Nat.eqb_eq in Hall.
  destruct (covering (fields_of p m) b) as [| f [| g rest]];
    try discriminate.
  now exists f.
Qed.

(** X3.  In every register that keeps the layout invariant, each of the
    32 bit positions belongs to exactly one declared field (padding
    counted). *)
Theorem every_bit_has_one_field
  (p : packing) (m : member) (b : Z) :
  In m all_registers -> register_ok p m = true -> 0 <= b < 32 ->
  exists f,
    In f (fields_of p m) /\ in_range f b = true
    /\ forall g, In g (fields_of p m) -> in_range g b = true -> g = f.
Proof.
  intros Hm Hok Hb.
  destruct (covering_one p m b Hm Hok Hb) as [f Hf].
  assert (Hin : forall g,
             In g (covering (fields_of p m) b)
             <-> In g (fields_of p m) /\ in_range g b = true)
    by (intros g; apply filter_In).
  exists f. split; [| split].
  - apply Hin. rewrite Hf. now left.
  - apply Hin. rewrite Hf. now left.
  - intros g Hg Hr.
    assert (Hg' : In g (covering (fields_of p m) b)) by now apply Hin.
    rewrite Hf in Hg'. destruct Hg' as [-> | []]. reflexivity.
Qed.

Lemma every_bit_has_one_field_witness :
  exists f,
    In f (fields_of NextUnit Main.reg_arp_configuration)
    /\ in_range f 17 = true
    /\ forall g, In g (fields_of NextUnit Main.reg_arp_configuration) ->
                 in_range g 17 = true -> g = f.
Proof.
  apply every_bit_has_one_field.
  - apply main_in_all. simpl. tauto.
  - vm_compute. reflexivity.
  - lia.
Defined.

(* ================================================================== *)
(** * How reads and writes compose *)

Lemma testbit_above_word (raw b : Z) :
  0 <= raw < 2 ^ 32 -> 32 <= b -> Z.testbit raw b = false.
Proof.
  intros Hraw Hb. destruct (Z.eq_dec raw 0) as [-> | Hnz].
  - apply Z.bits_0.
  - apply Z.bits_above_log2; try lia.
    assert (Z.log2 raw < 32) by (apply Z.log2_lt_pow2; lia). lia.
Qed.

Lemma word_testbit (raw b : Z) :
  0 <= raw < 2 ^ 32 -> (b <? 32) && Z.testbit raw b = Z.testbit raw b.
Proof.
  intros Hraw. destruct (Z.ltb_spec b 32); simpl; trivial.
  symmetry. now apply testbit_above_word.
Qed.

Lemma disjoint_not_both (f g : field) (b : Z) :
  ranges_disjoint f g = true -> in_range f b = true -> in_range g b = false.
Proof.
  unfold ranges_disjoint, in_range. intros Hd Hf.
  apply andb_true_iff in Hf as [Hlo Hhi].
  apply Z.leb_le in Hlo. apply Z.ltb_lt in Hhi.
  apply andb_false_iff.
  apply orb_true_iff in Hd as [Hd | Hd]; apply Z.leb_le in Hd.
  - left. apply Z.leb_gt. lia.
  - right. apply Z.ltb_ge. lia.
Qed.

Section TwoFields.

Variables f g : field.
Hypothesis f_off : 0 <= f_offset f.
Hypothesis f_wid : 0 <= f_width f.
Hypothesis g_off : 0 <= f_offset g.
Hypothesis g_wid : 0 <= f_width g.

(** The last write to a field is the one that counts. *)
Lemma insert_insert_same (raw v w : Z) :
  insert (insert raw f v) f w = insert raw f w.
Proof using f_off f_wid.
  apply Z.bits_inj'. intros b Hb.
  rewrite !insert_testbit by assumption.
  destruct (in_range f b), (b <? 32); reflexivity.
Qed.

(** Writing back what was read changes nothing. *)
Lemma insert_extract_same (raw : Z) :
  0 <= raw < 2 ^ 32 -> insert raw f (extract raw f) = raw.
Proof using f_off f_wid.
  intros Hraw. apply Z.bits_inj'. intros b Hb.
  rewrite insert_testbit by assumption.
  rewrite <- (word_testbit raw b Hraw) at 2. f_equal.
  destruct (in_range f b) eqn:Hr; trivial.
  unfold in_range in Hr. apply andb_true_iff in Hr as [Hlo Hhi].
  apply Z.leb_le in Hlo. apply Z.ltb_lt in Hhi.
  rewrite extract_testbit by lia.
  replace (b - f_offset f <? f_width f) with true
    by (symmetry; apply Z.ltb_lt; lia).
  simpl. f_equal. lia.
Qed.

Hypothesis apart : ranges_disjoint f g = true.

(** A write to one field is not seen by a read of another. *)
Lemma extract_insert_other (raw v : Z) :
  0 <= raw < 2 ^ 32 -> extract (insert raw f v) g = extract raw g.
Proof using f_off f_wid g_off g_wid apart.
  intros Hraw. apply Z.bits_inj'. intros b Hb.
  rewrite !extract_testbit by assumption.
  destruct (Z.ltb_spec b (f_width g)) as [Hlt | Hge]; simpl; trivial.
  apply insert_frame; trivial.
  rewrite ranges_disjoint_sym in apart.
  apply (disjoint_not_both g f); trivial.
  unfold in_range. apply andb_true_iff. split.
  - apply Z.leb_le. lia.
  - apply Z.ltb_lt. lia.
Qed.

(** Writes to two fields can be done in either order. *)
Lemma insert_insert_other (raw v w : Z) :
  insert (insert raw f v) g w = insert (insert raw g w) f v.
Proof using f_off f_wid g_off g_wid apart.
  apply Z.bits_inj'. intros b Hb.
  rewrite !insert_testbit by assumption.
  destruct (in_range f b) eqn:Hf.
  - rewrite (disjoint_not_both f g b apart Hf).
    destruct (b <? 32); reflexivity.
  - destruct (in_range g b), (b <? 32); reflexivity.
Qed.

End TwoFields.

(* ================================================================== *)
(** * Reads and writes over the declared fields *)

Lemma fields_of_sane (p : packing) (m : member) (f : field) :
  In m all_registers -> In f (fields_of p m) ->
  0 <= f_offset f /\ 0 <= f_width f.
Proof.
  intros Hm Hf.
  destruct (all_fields_sane p f (in_all_fields p m f Hm Hf)). lia.
Qed.

(** X4.  Within one register, writing a field does not change what any
    other field of that register reads. *)
Theorem write_leaves_other_fields
  (p : packing) (m : member) (f g : field) (raw v : Z) :
  In m all_registers ->
  In f (fields_of p m) -> In g (fields_of p m) -> f <> g ->
  0 <= raw < 2 ^ 32 ->
  extract (insert raw f v) g = extract raw g.
Proof.
  intros Hm Hf Hg Hne Hraw.
  destruct (fields_of_sane p m f Hm Hf), (fields_of_sane p m g Hm Hg).
  apply extract_insert_other; trivial.
  now apply (fields_of_apart p m).
Qed.

Lemma write_leaves_other_fields_witness :
  extract (insert 4294967295 (mkfield "arp_tryings" 12 4) 0)
          (mkfield "arp_timeout_ms" 0 12)
  = extract 4294967295 (mkfield "arp_timeout_ms" 0 12).
Proof.
  apply (write_leaves_other_fields Straddle Main.reg_arp_configuration).
  - apply main_in_all. simpl. tauto.
  - simpl. tauto.
  - simpl. tauto.
  - discriminate.
  - lia.
Defined.

(** X5.  Within one register, writes to two different fields give the same
    register value in either order. *)
Theorem writes_to_two_fields_commute
  (p : packing) (m : member) (f g : field) (raw v w : Z) :
  In m all_registers ->
  In f (fields_of p m) -> In g (fields_of p m) -> f <> g ->
  insert (insert raw f v) g w = insert (insert raw g w) f v.
Proof.
  intros Hm Hf Hg Hne.
  destruct (fields_of_sane p m f Hm Hf), (fields_of_sane p m g Hm Hg).
  apply insert_insert_other; trivial.
  now apply (fields_of_apart p m).
Qed.

Lemma writes_to_two_fields_commute_witness :
  insert (insert 0 (mkfield "arp_tryings" 12 4) 3)
         (mkfield "arp_timeout_ms" 0 12) 1000
  = insert (insert 0 (mkfield "arp_timeout_ms" 0 12) 1000)
           (mkfield "arp_tryings" 12 4) 3.
Proof.
  apply (writes_to_two_fields_commute Straddle Main.reg_arp_configuration).
  - apply main_in_all. simpl. tauto.
  - simpl. tauto.
  - simpl. tauto.
  - discriminate.
Defined.

(** X6.  Of two writes to the same declared field, only the second shows:
    the first leaves no trace in the register. *)
Theorem second_write_wins (p : packing) (f : field) (raw v w : Z) :
  In f (all_fields p) ->
  insert (insert raw f v) f w = insert raw f w.
Proof.
  intros Hf. destruct (all_fields_sane p f Hf).
  apply insert_insert_same; lia.
Qed.

Lemma second_write_wins_witness :
  insert (insert 0 (mkfield "arp_tryings" 12 4) 15)
         (mkfield "arp_tryings" 12 4) 2
  = insert 0 (mkfield "arp_tryings" 12 4) 2.
Proof.
  apply (second_write_wins Straddle).
  apply (in_all_fields Straddle Main.reg_arp_configuration).
  - apply main_in_all. simpl. tauto.
  - simpl. tauto.
Defined.

(** X7.  Writing back to a declared field the value just read from it
    leaves a 32-bit register value as it was. *)
Theorem write_back_is_identity (p : packing) (f : field) (raw : Z) :
  In f (all_fields p) -> 0 <= raw < 2 ^ 32 ->
  insert raw f (extract raw f) = raw.
Proof.
  intros Hf Hraw. destruct (all_fields_sane p f Hf).
  apply insert_extract_same; lia.
Qed.

Lemma write_back_is_identity_witness :
  insert 305419896 (mkfield "gen_frame_size_static" 17 16)
         (extract 305419896 (mkfield "gen_frame_size_static" 17 16))
  = 305419896.
Proof.
  apply (write_back_is_identity Straddle).
  - apply (in_all_fields Straddle Test.reg_gen_config).
    + apply test_in_all. simpl. tauto.
    + simpl. tauto.
  - lia.
Defined.

(** X8.  At every declared field except [gen_frame_size_static],
    [gen_rate_limitation], [chk_frame_size_static] and
    [chk_rate_limitation], a write followed by a read gives the value
    modulo [2^width], whatever the register held and whatever is written. *)
Theorem roundtrip_at_all_other_fields
  (p : packing) (f : field) (raw v : Z) :
  In f (all_fields p) ->
  ~ In (f_name f)
       ["gen_frame_size_static"; "gen_rate_limitation";
        "chk_frame_size_static"; "chk_rate_limitation"]%string ->
  extract (insert raw f v) f = v mod 2 ^ f_width f.
Proof.
  intros Hf Hname. apply (roundtrip_within_word p); trivial.
  destruct (within_word f) eqn:Hw; trivial.
  exfalso. apply Hname. rewrite <- (fields_outside_word p).
  apply in_map. apply filter_In. split; trivial. now rewrite Hw.
Qed.

Lemma roundtrip_at_all_other_fields_witness :
  extract (insert 4294967295 (mkfield "arp_tryings" 12 4) 21)
          (mkfield "arp_tryings" 12 4)
  = 21 mod 2 ^ 4.
Proof.
  apply (roundtrip_at_all_other_fields Straddle
           (mkfield "arp_tryings" 12 4)).
  - apply (in_all_fields Straddle Main.reg_arp_configuration).
    + apply main_in_all. simpl. tauto.
    + simpl. tauto.
  - simpl. intros [H | [H | [H | [H | []]]]]; discriminate H.
Defined.

(* ================================================================== *)
(** * A register and the values of its fields *)

Lemma write_fields_range (fs : list field) :
  forall vs raw, 0 <= raw < 2 ^ 32 -> 0 <= write_fields fs vs raw < 2 ^ 32.
Proof.
  induction fs as [| f fs' IH]; intros [| v vs'] raw Hraw; simpl; trivial.
  apply IH. apply insert_range.
Qed.

(** Bit [b] after all fields of [raw] were written over [raw0]: the bit of
    [raw] where some field covers [b], the bit of [raw0] elsewhere. *)
Lemma write_read_testbit (raw : Z) (fs : list field) :
  0 <= raw < 2 ^ 32 -> all_sane fs ->
  forall raw0 b,
    0 <= raw0 < 2 ^ 32 -> 0 <= b ->
    Z.testbit (write_fields fs (read_fields fs raw) raw0) b
    = if existsb (fun f => in_range f b) fs
      then Z.testbit raw b else Z.testbit raw0 b.
Proof.
  intros Hraw. induction fs as [| f fs' IH]; intros Hsane raw0 b Hraw0 Hb.
  - reflexivity.
  - destruct (Hsane f (or_introl eq_refl)) as [Ho Hw].
    assert (Hsane' : all_sane fs')
      by (intros g Hg; apply Hsane; now right).
    cbn [read_fields map write_fields existsb].
    change (map (extract raw) fs') with (read_fields fs' raw).
    rewrite IH; trivial; [| apply insert_range].
    destruct (existsb (fun g => in_range g b) fs');
      [now rewrite orb_true_r |].
    rewrite orb_false_r, insert_testbit by assumption.
    destruct (in_range f b) eqn:Hr.
    + unfold in_range in Hr. apply andb_true_iff in Hr as [Hlo Hhi].
      apply Z.leb_le in Hlo. apply Z.ltb_lt in Hhi.
      rewrite extract_testbit by lia.
      replace (b - f_offset f <? f_width f) with true
        by (symmetry; apply Z.ltb_lt; lia).
      replace (b - f_offset f + f_offset f) with b by lia.
      now apply word_testbit.
    + now apply word_testbit.
Qed.

(** X9.  A register that keeps the layout invariant is determined by the
    values of its fields: reading all fields of a 32-bit value and writing
    them, in declaration order, over any other 32-bit value gives the
    first value back. *)
Theorem fields_determine_register
  (p : packing) (m : member) (raw raw0 : Z) :
  In m all_registers -> register_ok p m = true ->
  0 <= raw < 2 ^ 32 -> 0 <= raw0 < 2 ^ 32 ->
  write_fields (fields_of p m) (read_fields (fields_of p m) raw) raw0 = raw.
Proof.
  intros Hm Hok Hraw Hraw0. apply Z.bits_inj'. intros b Hb.
  rewrite write_read_testbit; trivial;
    [| intros f Hf; now apply (fields_of_sane p m)].
  destruct (Z.lt_ge_cases b 32) as [Hlt | Hge].
  - destruct (covering_one p m b Hm Hok (conj Hb Hlt)) as [f Hf].
    replace (existsb (fun f0 => in_range f0 b) (fields_of p m)) with true;
      trivial.
    symmetry. apply existsb_exists. exists f.
    apply (proj1 (filter_In (fun g => in_range g b) f (fields_of p m))).
    unfold covering in Hf. rewrite Hf. now left.
  - rewrite !testbit_above_word by assumption.
    now destruct (existsb _ _).
Qed.

Lemma fields_determine_register_witness :
  write_fields (fields_of Straddle Main.reg_arp_configuration)
    (read_fields (fields_of Straddle Main.reg_arp_configuration) 305419896)
    4294967295
  = 305419896.
Proof.
  apply fields_determine_register.
  - apply main_in_all. simpl. tauto.
  - vm_compute. reflexivity.
  - lia.
  - lia.
Defined.

(** Writing a list of fields is not seen by a field apart from them all. *)
Lemma write_fields_frame (g : field) (fs : list field) :
  0 <= f_offset g -> 0 <= f_width g -> all_sane fs ->
  (forall f, In f fs -> ranges_disjoint f g = true) ->
  forall vs raw,
    0 <= raw < 2 ^ 32 ->
    extract (write_fields fs vs raw) g = extract raw g.
Proof.
  intros Hgo Hgw. induction fs as [| f fs' IH]; intros Hsane Hd vs raw Hraw.
  - reflexivity.
  - destruct vs as [| v vs']; [reflexivity |].
    destruct (Hsane f (or_introl eq_refl)) as [Ho Hw].
    cbn [write_fields]. rewrite IH.
    + apply extract_insert_other; trivial. apply Hd. now left.
    + intros h Hh. apply Hsane. now right.
    + intros h Hh. apply Hd. now right.
    + apply insert_range.
Qed.

Lemma read_write_fields (fs : list field) :
  all_sane fs -> forallb within_word fs = true ->
  pairwise_disjoint fs = true ->
  forall vs raw,
    List.length vs = List.length fs -> 0 <= raw < 2 ^ 32 ->
    read_fields fs (write_fields fs vs raw)
    = map (fun fv => snd fv mod 2 ^ f_width (fst fv)) (combine fs vs).
Proof.
  induction fs as [| f fs' IH]; intros Hsane Hin Hdis vs raw Hlen Hraw.
  - reflexivity.
  - destruct vs as [| v vs']; [discriminate |].
    cbn [forallb] in Hin. apply andb_true_iff in Hin as [Hf Hin].
    cbn [pairwise_disjoint] in Hdis.
    apply andb_true_iff in Hdis as [Hhead Hdis].
    rewrite forallb_forall in Hhead.
    apply within_word_spec in Hf as (Ho & Hw & Hfit).
    assert (Hsane' : all_sane fs')
      by (intros g Hg; apply Hsane; now right).
    cbn [write_fields read_fields map combine fst snd]. f_equal.
    + rewrite write_fields_frame; trivial.
      * now apply extract_insert.
      * intros g Hg. rewrite ranges_disjoint_sym. now apply Hhead.
      * apply insert_range.
    + apply IH; trivial; [now injection Hlen | apply insert_range].
Qed.

(** X10.  In a register that keeps the layout invariant, writing one value
    per field, in declaration order, and then reading all fields gives each
    value modulo [2^width] of its field. *)
Theorem register_holds_field_values
  (p : packing) (m : member) (vs : list Z) (raw : Z) :
  In m all_registers -> register_ok p m = true ->
  List.length vs = List.length (fields_of p m) ->
  0 <= raw < 2 ^ 32 ->
  read_fields (fields_of p m) (write_fields (fields_of p m) vs raw)
  = map (fun fv => snd fv mod 2 ^ f_width (fst fv))
        (combine (fields_of p m) vs).
Proof.
  intros Hm Hok Hlen Hraw. unfold register_ok in Hok.
  apply andb_true_iff in Hok as [Hok _].
  apply andb_true_iff in Hok as [Hdis Hin].
  apply read_write_fields; trivial.
  intros f Hf. now apply (fields_of_sane p m).
Qed.

Lemma register_holds_field_values_witness :
  read_fields (fields_of Straddle Main.reg_version)
    (write_fields (fields_of Straddle Main.reg_version) [258; 3; 70000] 0)
  = [2; 3; 4464].
Proof.
  apply (register_holds_field_values Straddle Main.reg_version
           [258; 3; 70000] 0).
  - apply main_in_all. simpl. tauto.
  - vm_compute. reflexivity.
  - reflexivity.
  - lia.
Defined.

(* ================================================================== *)
(** * Names *)

Lemma field_eqb_eq (f g : field) : field_eqb f g = true -> f = g.
Proof.
  destruct f as [fn fo fw], g as [gn go gw]. unfold field_eqb. simpl.
  intros H. apply andb_true_iff in H as [H Hw].
  apply andb_true_iff in H as [Hn Ho].
  apply String.eqb_eq in Hn. apply Z.eqb_eq in Ho, Hw. now subst.
Qed.

Lemma nodupb_NoDup (l : list string) : nodupb l = true -> NoDup l.
Proof.
  induction l as [| x t IH]; intros H; [constructor |].
  simpl in H. apply andb_true_iff in H as [Hx Ht].
  constructor; [| now apply IH].
  intros Hin. apply negb_true_iff in Hx.
  assert (Hex : existsb (String.eqb x) t = true).
  { apply existsb_exists. exists x. split; trivial. apply String.eqb_refl. }
  congruence.
Qed.

Lemma lookup_check (p : packing) :
  forallb
    (fun m =>
       forallb
         (fun f => match lookup_field p m (f_name f) with
                   | Some g => field_eqb g f
                   | None => false
                   end)
         (fields_of p m))
    all_registers = true.
Proof. destruct p; vm_compute; reflexivity. Qed.

(** X11.  Within a register the field names are distinct: looking a
    declared field up by its name gives that field, with its offset and
    width. *)
Theorem lookup_by_name_finds_the_field
  (p : packing) (m : member) (f : field) :
  In m all_registers -> In f (fields_of p m) ->
  lookup_field p m (f_name f) = Some f.
Proof.
  intros Hm Hf. pose proof (lookup_check p) as Hall.
  rewrite forallb_forall in Hall. specialize (Hall m Hm).
  rewrite forallb_forall in Hall. specialize (Hall f Hf).
  destruct (lookup_field p m (f_name f)) as [g |]; [| discriminate].
  now apply field_eqb_eq in Hall as ->.
Qed.

Lemma lookup_by_name_finds_the_field_witness :
  lookup_field NextUnit Test.reg_gen_config "gen_rate_limitation"
  = Some (mkfield "gen_rate_limitation" 48 8).
Proof.
  apply (lookup_by_name_finds_the_field NextUnit Test.reg_gen_config
           (mkfield "gen_rate_limitation" 48 8)).
  - apply test_in_all. simpl. tauto.
  - vm_compute. tauto.
Defined.

(** X12.  Apart from padding, no field name is declared twice, in any
    register of either block; register names are distinct within each
    block, and the only names the two blocks share are those of the four
    interrupt registers. *)
Theorem names_are_unambiguous :
  NoDup (named_field_names all_registers)
  /\ NoDup (map member_name Main.main_uoe_registers)
  /\ NoDup (map member_name Test.test_uoe_registers)
  /\ common_names (map member_name Main.main_uoe_registers)
                  (map member_name Test.test_uoe_registers)
     = ["reg_interrupt_status"; "reg_interrupt_enable";
        "reg_interrupt_clear"; "reg_interrupt_set"]%string.
Proof.
  repeat split; try (apply nodupb_NoDup; vm_compute; reflexivity).
Qed.

Lemma padding_check (p : packing) :
  forallb
    (fun m =>
       implb (register_ok p m)
         (forallb
            (fun f =>
               implb (is_padding (f_name f))
                 ((f_offset f + f_width f =? 32)
                  && forallb
                       (fun g => implb (negb (is_padding (f_name g)))
                                       (f_offset g + f_width g
                                        <=? f_offset f))
                       (fields_of p m)))
            (fields_of p m)))
    all_registers = true.
Proof. destruct p; vm_compute; reflexivity. Qed.

(** X13.  In a register that keeps the layout invariant, padding takes the
    top of the word: a padding field ends at bit 32 and every named field
    lies below it. *)
Theorem padding_is_on_top
  (p : packing) (m : member) (f g : field) :
  In m all_registers -> register_ok p m = true ->
  In f (fields_of p m) -> In g (fields_of p m) ->
  is_padding (f_name f) = true -> is_padding (f_name g) = false ->
  f_offset f + f_width f = 32 /\ f_offset g + f_width g <= f_offset f.
Proof.
  intros Hm Hok Hf Hg Hpf Hpg. pose proof (padding_check p) as Hall.
  rewrite forallb_forall in Hall. specialize (Hall m Hm).
  rewrite Hok in Hall. cbn [implb] in Hall.
  rewrite forallb_forall in Hall. specialize (Hall f Hf).
  rewrite Hpf in Hall. cbn [implb] in Hall.
  apply andb_true_iff in Hall as [Hend Hbelow].
  rewrite forallb_forall in Hbelow. specialize (Hbelow g Hg).
  rewrite Hpg in Hbelow. cbn [negb implb] in Hbelow.
  apply Z.eqb_eq in Hend. apply Z.leb_le in Hbelow. now split.
Qed.

Lemma padding_is_on_top_witness :
  f_offset (mkfield "padding6" 21 11) + f_width (mkfield "padding6" 21 11)
  = 32
  /\ f_offset (mkfield "arp_tryings" 12 4)
     + f_width (mkfield "arp_tryings" 12 4)
     <= f_offset (mkfield "padding6" 21 11).
Proof.
  apply (padding_is_on_top Straddle Main.reg_arp_configuration
           (mkfield "padding6" 21 11) (mkfield "arp_tryings" 12 4)).
  - apply main_in_all. simpl. tauto.
  - vm_compute. reflexivity.
  - simpl. tauto.
  - simpl. tauto.
  - reflexivity.
  - reflexivity.
Defined.

(* ================================================================== *)
(** * The test block in memory, interrupt bits, wide values *)

(** X14.  The test block has 32 members but takes 136 bytes, not 128:
    [reg_gen_config] and [reg_chk_config], with their 41 declared bits,
    take two words each, so every register after [reg_gen_config] lies 4
    bytes, and every register after [reg_chk_config] 8 bytes, above the
    offset its index gives; [reg_interrupt_status] is at byte 0x40. *)
Theorem test_block_layout (p : packing) :
  List.length Test.test_uoe_registers = 32%nat
  /\ map (member_size p) Test.test_uoe_registers
     = map (fun m => if total_width m <=? 32 then 4 else 8)
           Test.test_uoe_registers
  /\ map snd (member_offsets p 0 Test.test_uoe_registers)
     = [0; 4] ++ map (fun i => 4 * Z.of_nat i + 4) (seq 2 5)
       ++ map (fun i => 4 * Z.of_nat i + 8) (seq 7 25)
  /\ offset_of p Test.test_uoe_registers "reg_interrupt_status" = Some 0x40
  /\ block_size p Test.test_uoe_registers = 136.
Proof. destruct p; vm_compute; repeat split; reflexivity. Qed.

(** X15.  In both blocks and in each of the four interrupt registers, the
    sources take the low bits in declaration order: the source of index
    [i] is bit [i]; no source is declared twice. *)
Theorem irq_sources_fill_low_bits (p : packing) (b : block) (k : irq_kind) :
  map (irq_bit p b k) (irq_sources b)
  = map (fun i => Some (Z.of_nat i))
        (seq 0 (List.length (irq_sources b)))
  /\ NoDup (irq_sources b).
Proof.
  split.
  - destruct p, b, k; vm_compute; reflexivity.
  - apply nodupb_NoDup. destruct b; vm_compute; reflexivity.
Qed.

(** X16.  Every field named [.._lsb] is the only field of its register,
    and the next register of the block starts with the field of the same
    stem named [.._msb]; no [_msb] field is without its [_lsb].
    The main block holds two 48-bit values so split, the test block ten
    64-bit values. *)
Theorem wide_values_are_adjacent_pairs :
  (forall b,
      stems_with "_lsb" (block_members b)
      = map fst (wide_values (block_members b))
      /\ stems_with "_msb" (block_members b)
         = map fst (wide_values (block_members b)))
  /\ wide_values Main.main_uoe_registers
     = [("local_mac_addr", 48); ("raw_dest_mac_addr", 48)]%string
  /\ map snd (wide_values Test.test_uoe_registers) = repeat 64 10.
Proof.
  split; [intros []; vm_compute; split; reflexivity |].
  split; vm_compute; reflexivity.
Qed.

(* ================================================================== *)
(** * Fields declared past the register word *)

Lemma insert_past_word (f : field) (raw v : Z) :
  32 <= f_offset f -> 0 <= f_width f -> 0 <= raw < 2 ^ 32 ->
  insert raw f v = raw.
Proof.
  intros Ho Hw Hraw. apply Z.bits_inj'. intros b Hb.
  rewrite insert_testbit by lia.
  destruct (Z.ltb_spec b 32) as [Hlt | Hge]; cbn [andb].
  - unfold in_range.
    replace (f_offset f <=? b) with false; trivial.
    symmetry. apply Z.leb_gt. lia.
  - symmetry. now apply testbit_above_word.
Qed.

Lemma rate_limitation_check (p : packing) :
  forallb
    (fun f =>
       implb (existsb (String.eqb (f_name f))
                      ["gen_rate_limitation"; "chk_rate_limitation"]%string)
             (32 <=? f_offset f))
    (all_fields p) = true.
Proof. destruct p; vm_compute; reflexivity. Qed.

(** X17.  [gen_rate_limitation] and [chk_rate_limitation] are declared past
    bit 31 of their register: with either packing rule, a write to them
    leaves the 32-bit register value [regValue] unchanged, whatever is
    written. *)
Theorem rate_limitation_write_misses_regvalue
  (p : packing) (f : field) (raw v : Z) :
  In f (all_fields p) ->
  In (f_name f) ["gen_rate_limitation"; "chk_rate_limitation"]%string ->
  0 <= raw < 2 ^ 32 ->
  insert raw f v = raw.
Proof.
  intros Hf Hname Hraw.
  destruct (all_fields_sane p f Hf) as [_ Hw].
  assert (Ho : 32 <= f_offset f).
  { pose proof (rate_limitation_check p) as Hall.
    rewrite forallb_forall in Hall. specialize (Hall f Hf).
    replace (existsb (String.eqb (f_name f))
                     ["gen_rate_limitation"; "chk_rate_limitation"]%string)
      with true in Hall.
    - now apply Z.leb_le in Hall.
    - symmetry. apply existsb_exists. exists (f_name f).
      split; trivial. apply String.eqb_refl. }
  apply insert_past_word; trivial; lia.
Qed.

Lemma rate_limitation_write_misses_regvalue_witness :
  insert 305419896 (mkfield "gen_rate_limitation" 33 8) 200 = 305419896.
Proof.
  apply (rate_limitation_write_misses_regvalue Straddle).
  - apply (in_all_fields Straddle Test.reg_gen_config).
    + apply test_in_all. simpl. tauto.
    + simpl. tauto.
  - simpl. tauto.
  - lia.
Defined.
